(** * select-all-other: the occurrence finder, the selection builder and the
    command that ties them to the editor (src/extension.ts).

    Strings are JavaScript strings: finite sequences of UTF-16 code units.
    Array indices and offsets are JavaScript numbers that only ever hold
    integers here ([-1] included, the "not found" answer of [indexOf]), so
    they are modelled as [Z].  The [while] loop of [findAll] is the only loop
    that may fail to end; it takes a fuel argument and answers [None] when
    the fuel runs out. *)

From Stdlib Require Import ZArith List Lia Ascii String.
From stdpp Require Import base decidable option list numbers sorting.

Local Open Scope Z_scope.

(** ** JavaScript strings *)

Abbreviation jsstring := (list N).

(** A string literal of the source, as its code units. *)
Definition js (s : string) : jsstring :=
  List.map N_of_ascii (list_ascii_of_string s).

(** [s.length] *)
Definition len {A} (s : list A) : Z := Z.of_nat (length s).

(** [T.substring(i, i + m)] for [0 <= i]: the spec's [T[i : i+m]]. *)
Definition substring (T : jsstring) (i : Z) (m : nat) : jsstring :=
  take m (drop (Z.to_nat i) T).

(** Does [t] start with [search]?  (The candidate comparison inside the
    engine's [indexOf].) *)
Fixpoint startsWithb (search t : jsstring) : bool :=
  match search, t with
  | [], _ => true
  | _ :: _, [] => false
  | a :: search', b :: t' => (a =? b)%N && startsWithb search' t'
  end.

(** The search of [String.prototype.indexOf] once the start is clamped:
    [t] is the text from offset [k] on; the first offset at which [search]
    stands, or [-1]. *)
Fixpoint scanFrom (search t : jsstring) (k : Z) : Z :=
  if startsWithb search t then k
  else match t with
       | [] => -1
       | _ :: t' => scanFrom search t' (k + 1)
       end.

(** [text.indexOf(search, position)]: the position is clamped to
    [0 .. text.length]; [text.indexOf(search)] is [indexOf text search 0]. *)
Definition indexOf (text search : jsstring) (position : Z) : Z :=
  let start := Z.min (Z.max position 0) (len text) in
  scanFrom search (drop (Z.to_nat start) text) start.

(** ** findAll (extension.ts, lines 12-20) *)

(** The [while (index !== -1)] loop: [indices] is the array built so far. *)
Fixpoint findAll_loop (fuel : nat) (text search : jsstring)
    (index : Z) (indices : list Z) : option (list Z) :=
  match fuel with
  | O => None
  | S fuel' =>
      if index =? -1 then Some indices
      else findAll_loop fuel' text search
             (indexOf text search (index + 1)) (indices ++ [index])
  end.

Definition findAll (fuel : nat) (text search : jsstring) : option (list Z) :=
  findAll_loop fuel text search (indexOf text search 0) [].

(** The offsets at which [S] stands in [T], in increasing order: what the
    finder is specified to return. *)
Definition occurrences (T S : jsstring) : list Z :=
  filter (λ i, substring T i (length S) = S) (seqZ 0 (len T + 1)).

(** ** The host's value classes: Position, Range, Selection *)

(** A [vscode.Position]: zero-based line and character. *)
Record Position := mkPosition { line : Z; character : Z }.

(** [p.isEqual(q)] and [p.isBefore(q)] *)
Definition Position_isEqual (p q : Position) : bool :=
  (line p =? line q) && (character p =? character q).

Definition Position_isBefore (p q : Position) : bool :=
  (line p <? line q) || ((line p =? line q) && (character p <? character q)).

(** [p.translate(lineDelta, characterDelta)].  The host's constructor
    rejects a negative line or character; the command only ever passes
    [lineDelta = 0] and a string length, so that case cannot arise. *)
Definition translate (p : Position) (lineDelta characterDelta : Z) : Position :=
  mkPosition (line p + lineDelta) (character p + characterDelta).

(** A [vscode.Range]; the host builds them with [start] not after
    [end_]. *)
Record Range := mkRange { start : Position; end_ : Position }.

(** [new Range(a, b)] orders its two positions. *)
Definition newRange (a b : Position) : Range :=
  if Position_isBefore a b then mkRange a b else mkRange b a.

(** [r.isEqual(r')] and [r.isEmpty] *)
Definition Range_isEqual (r r' : Range) : bool :=
  Position_isEqual (start r) (start r') && Position_isEqual (end_ r) (end_ r').

Definition Range_isEmpty (r : Range) : bool :=
  Position_isEqual (start r) (end_ r).

(** A [vscode.Selection] is a Range that remembers which end is the anchor
    and which the cursor: [new Selection(anchor, active)]. *)
Record Selection := mkSelection { anchor : Position; active : Position }.

(** The Range a Selection is ([super(anchor, active)]). *)
Definition Selection_range (s : Selection) : Range :=
  newRange (anchor s) (active s).

Global Instance Position_eq_dec : EqDecision Position.
Proof. solve_decision. Defined.
Global Instance Range_eq_dec : EqDecision Range.
Proof. solve_decision. Defined.
Global Instance Selection_eq_dec : EqDecision Selection.
Proof. solve_decision. Defined.

(** ** The host's document and editor, as the command sees them *)

(** The capabilities of [editor.document] the command calls. *)
Record TextDocument := mkTextDocument {
  getText : jsstring;                            (* document.getText() *)
  getTextRange : Range → jsstring;               (* document.getText(range) *)
  positionAt : Z → Position;
  offsetAt : Position → Z;
  getWordRangeAtPosition : Position → option Range  (* undefined = None *)
}.

(** The editor, as the command sees it.  The host keeps an array of
    selections that is never empty: [editor.selection] is its first
    entry, the primary selection. *)
Record TextEditor := mkTextEditor {
  document : TextDocument;
  selection : Selection;                  (* editor.selections[0] *)
  secondarySelections : list Selection    (* editor.selections[1], [2], ... *)
}.

(** [editor.selections] *)
Definition selections (editor : TextEditor) : list Selection :=
  selection editor :: secondarySelections editor.

(** [vscode.window]: [activeTextEditor] is [undefined] when no editor has
    the focus. *)
Record Window := mkWindow { activeTextEditor : option TextEditor }.

(** [new Selection(0, 0, 0, 0)] *)
Definition caretAtOrigin : Selection :=
  mkSelection (mkPosition 0 0) (mkPosition 0 0).

(** [editor.selections = value].  The host's setter stores an empty array
    as one caret at the start of the document; the first entry of what it
    stores is the new [editor.selection]. *)
Definition assign_selections (editor : TextEditor) (value : list Selection) : Window :=
  match value with
  | [] => mkWindow (Some (mkTextEditor (document editor) caretAtOrigin []))
  | primary :: others =>
      mkWindow (Some (mkTextEditor (document editor) primary others))
  end.

(** ** Arrays of numbers *)

(** [l.indexOf(x)] on an array of integers: the first index that holds [x],
    or [-1]. *)
Fixpoint Array_indexOf_from (l : list Z) (x : Z) (k : Z) : Z :=
  match l with
  | [] => -1
  | y :: l' => if y =? x then k else Array_indexOf_from l' x (k + 1)
  end.

Definition Array_indexOf (l : list Z) (x : Z) : Z := Array_indexOf_from l x 0.

(** [l.splice(start, deleteCount)], the array it leaves behind: a negative
    [start] counts from the end, and both numbers are clamped to the
    array. *)
Definition splice {A} (l : list A) (start deleteCount : Z) : list A :=
  let n := len l in
  let actualStart := if start <? 0 then Z.max (n + start) 0 else Z.min start n in
  let actualDeleteCount := Z.min (Z.max deleteCount 0) (n - actualStart) in
  take (Z.to_nat actualStart) l ++ drop (Z.to_nat (actualStart + actualDeleteCount)) l.

(** ** indicesToSelections (extension.ts, lines 30-34) *)

Definition indicesToSelections (editor : TextEditor) (indices : list Z)
    (length : Z) : list Selection :=
  List.map (λ i,
      let start := positionAt (document editor) i in
      mkSelection start (translate start 0 length))
    indices.

(** ** getSelection (extension.ts, lines 44-47) *)

Definition getSelection (editor : TextEditor) : option Range * bool :=
  if Range_isEmpty (Selection_range (selection editor))
  then (getWordRangeAtPosition (document editor)
          (start (Selection_range (selection editor))), true)
  else (Some (Selection_range (selection editor)), false).


(** ** selectAllOther (extension.ts, lines 54-77) *)

(** Line 65: [indices.splice(indices.indexOf(offset), 1)]. *)
Definition removeOriginal (indices : list Z) (offset : Z) : list Z :=
  splice indices (Array_indexOf indices offset) 1.

(** Lines 71-72: the predicate of the whole-word filter,
    [getWordRangeAtPosition(s.start)?.isEqual(s)]. *)
Definition isWholeWord (doc : TextDocument) (s : Selection) : bool :=
  match getWordRangeAtPosition doc (start (Selection_range s)) with
  | Some r => Range_isEqual r (Selection_range s)
  | None => false
  end.

(** The command.  [Some w'] is a return with the window left as [w'];
    [None] is a run that [fuel] turns of the finder's loop do not finish. *)
Definition selectAllOther (fuel : nat) (w : Window) : option Window :=
  match activeTextEditor w with
  | None => Some w
  | Some editor =>
      let '(selection, wholeWords) := getSelection editor in
      match selection with
      | None => Some w
      | Some selection =>
          let selectedText := getTextRange (document editor) selection in
          match findAll fuel (getText (document editor)) selectedText with
          | None => None
          | Some indices =>
              let indices :=
                removeOriginal indices
                  (offsetAt (document editor) (start selection)) in
              let selections :=
                indicesToSelections editor indices (len selectedText) in
              if wholeWords
              then Some (assign_selections editor
                           (List.filter (isWholeWord (document editor)) selections))
              else Some (assign_selections editor selections)
          end
      end
  end.

(** ** A plain document, to run the command on

    A host document over a text whose lines end in a line feed: positions
    and offsets are converted by counting, a position outside the text is
    clamped, and a word is a maximal run of letters, digits and
    underscores that contains or touches the position. *)

Definition isLineFeed (u : N) : bool := (u =? 10)%N.

Definition advance (p : Position) (u : N) : Position :=
  if isLineFeed u then mkPosition (line p + 1) 0
  else mkPosition (line p) (character p + 1).

Fixpoint positionFrom (t : jsstring) (n : nat) (p : Position) : Position :=
  match n, t with
  | S n', u :: t' => positionFrom t' n' (advance p u)
  | _, _ => p
  end.

Definition atLineEnd (t : jsstring) : bool :=
  match t with
  | [] => true
  | u :: _ => isLineFeed u
  end.

Fixpoint offsetFrom (t : jsstring) (p cur : Position) (k : Z) : Z :=
  if (line cur =? line p) && ((character p <=? character cur) || atLineEnd t)
  then k
  else match t with
       | [] => k
       | u :: t' => offsetFrom t' p (advance cur u) (k + 1)
       end.

Definition isWordChar (u : N) : bool :=
  ((48 <=? u) && (u <=? 57) || (65 <=? u) && (u <=? 90)
   || (97 <=? u) && (u <=? 122) || (u =? 95))%N.

Fixpoint wordRun (t : jsstring) : nat :=
  match t with
  | u :: t' => if isWordChar u then S (wordRun t') else O
  | [] => O
  end.

Definition plainDocument (text : jsstring) : TextDocument :=
  let positionAt := λ offset, positionFrom text (Z.to_nat offset) (mkPosition 0 0) in
  let offsetAt := λ p, offsetFrom text p (mkPosition 0 0) 0 in
  {| getText := text;
     getTextRange := λ r,
       take (Z.to_nat (offsetAt (end_ r) - offsetAt (start r)))
            (drop (Z.to_nat (offsetAt (start r))) text);
     positionAt := positionAt;
     offsetAt := offsetAt;
     getWordRangeAtPosition := λ p,
       let k := Z.to_nat (offsetAt p) in
       let before := wordRun (reverse (take k text)) in
       let after := wordRun (drop k text) in
       if decide (before + after = 0)%nat then None
       else Some (mkRange (positionAt (Z.of_nat (k - before)))
                          (positionAt (Z.of_nat (k + after)))) |}.

(** An editor on [plainDocument text] whose selection runs from offset
    [from] to offset [to] (a caret when they are equal). *)
Definition editorOn (text : jsstring) (from to : Z) : TextEditor :=
  let doc := plainDocument text in
  let s := mkSelection (positionAt doc from) (positionAt doc to) in
  mkTextEditor doc s [].

(** The code unit of a line feed, for texts of more than one line. *)
Definition LF : jsstring := [10%N].

(** ** Facts about the string primitives *)

Lemma startsWithb_take search t :
  startsWithb search t = true ↔ take (length search) t = search.
Proof.
  revert t; induction search as [|a search IH]; intros [|b t]; simpl;
    try (split; [done | discriminate]); try done.
  rewrite andb_true_iff, N.eqb_eq, IH. split.
  - intros [-> ->]. done.
  - intros [= -> ->]. done.
Qed.

Lemma startsWithb_nil search : search ≠ [] → startsWithb search [] = false.
Proof. by destruct search. Qed.

Lemma substring_app_length pre t m :
  substring (pre ++ t) (len pre) m = take m t.
Proof.
  unfold substring, len. rewrite Nat2Z.id. by rewrite drop_app_length.
Qed.

Lemma indexOf_suffix pre t search :
  indexOf (pre ++ t) search (len pre) = scanFrom search t (len pre).
Proof.
  unfold indexOf, len. rewrite length_app.
  replace (Z.min _ _) with (Z.of_nat (length pre)) by lia.
  rewrite Nat2Z.id. by rewrite drop_app_length.
Qed.

(** ** The loop computes the occurrences *)

Lemma findAll_loop_suffix S T t : ∀ pre fuel acc,
  S ≠ [] →
  T = pre ++ t →
  (length t < fuel)%nat →
  findAll_loop fuel T S (scanFrom S t (len pre)) acc
  = Some (acc ++ filter (λ i, substring T i (length S) = S)
                        (seqZ (len pre) (len t + 1))).
Proof.
  induction t as [|u t IH]; intros pre fuel acc HS HT Hfuel.
  - destruct fuel as [|fuel]; [simpl in Hfuel; lia|].
    simpl. rewrite startsWithb_nil by done. simpl.
    unfold len at 2; simpl. rewrite seqZ_cons, seqZ_nil by lia.
    rewrite filter_cons, filter_nil.
    rewrite decide_False; [by rewrite app_nil_r|].
    rewrite HT, substring_app_length, take_nil. done.
  - assert (Hstep : T = (pre ++ [u]) ++ t) by (by rewrite <- app_assoc).
    assert (Hlen : len (pre ++ [u]) = len pre + 1)
      by (unfold len; rewrite length_app; simpl; lia).
    replace (len (u :: t) + 1) with (Z.succ (len t + 1))
      by (unfold len; simpl; lia).
    rewrite seqZ_cons by (unfold len; lia).
    rewrite Z.pred_succ, filter_cons.
    replace (Z.succ (len pre)) with (len (pre ++ [u])) by lia.
    simpl scanFrom. rewrite <- Hlen.
    destruct (startsWithb S (u :: t)) eqn:Hsw.
    + destruct fuel as [|fuel]; [simpl in Hfuel; lia|].
      simpl in Hfuel. simpl findAll_loop.
      rewrite (proj2 (Z.eqb_neq (len pre) (-1))) by (unfold len; lia).
      rewrite decide_True
        by (rewrite HT, substring_app_length; by apply startsWithb_take).
      rewrite <- Hlen. rewrite Hstep at 2. rewrite indexOf_suffix.
      rewrite (IH (pre ++ [u]) fuel (acc ++ [len pre])) by (done || lia).
      by rewrite <- app_assoc.
    + rewrite decide_False.
      2:{ rewrite HT, substring_app_length, <- startsWithb_take.
          by rewrite Hsw. }
      apply IH; [done | done | simpl in Hfuel; lia].
Qed.

(** With a search string that is not empty, [length T + 1] turns of the
    loop are enough, and the array returned is [occurrences T S]. *)
Lemma findAll_occurrences T S fuel :
  S ≠ [] → (length T < fuel)%nat → findAll fuel T S = Some (occurrences T S).
Proof.
  intros HS Hfuel. unfold findAll, occurrences.
  change (indexOf T S 0) with (indexOf ([] ++ T) S (len (@nil N))).
  rewrite indexOf_suffix.
  apply (findAll_loop_suffix S T T [] fuel [] HS eq_refl Hfuel).
Qed.

(** ** An empty search string: the loop never ends *)

Lemma scanFrom_empty t k : scanFrom [] t k = k.
Proof. by destruct t. Qed.

Lemma indexOf_empty_nonneg T p : 0 ≤ indexOf T [] p.
Proof. unfold indexOf, len. rewrite scanFrom_empty. lia. Qed.

Lemma findAll_loop_empty T fuel : ∀ index acc,
  0 ≤ index → findAll_loop fuel T [] index acc = None.
Proof.
  induction fuel as [|fuel IH]; intros index acc Hi; [done|].
  simpl. rewrite (proj2 (Z.eqb_neq index (-1))) by lia.
  apply IH, indexOf_empty_nonneg.
Qed.

Lemma findAll_empty_search T fuel : findAll fuel T [] = None.
Proof. apply findAll_loop_empty, indexOf_empty_nonneg. Qed.

(** ** What [occurrences] holds *)

Lemma substring_length_bound T i m :
  0 ≤ i → length (substring T i m) = m → i + Z.of_nat m ≤ len T ∨ m = 0%nat.
Proof.
  unfold substring, len. rewrite length_take, length_drop. lia.
Qed.

Lemma elem_of_occurrences T S j :
  S ≠ [] →
  j ∈ occurrences T S ↔ 0 ≤ j ∧ substring T j (length S) = S.
Proof.
  intros HS. unfold occurrences.
  rewrite list_elem_of_filter, elem_of_seqZ. split.
  - intros [? ?]. split; [lia | done].
  - intros [Hj Heq]. split; [done|]. split; [done|].
    destruct (substring_length_bound T j (length S) Hj) as [?|Hnil].
    + by rewrite Heq.
    + lia.
    + destruct S; [done | discriminate].
Qed.

Lemma occurrences_valid T S j :
  S ≠ [] → j ∈ occurrences T S → 0 ≤ j ≤ len T - len S.
Proof.
  intros HS [Hj Heq]%elem_of_occurrences; [|done].
  destruct (substring_length_bound T j (length S) Hj) as [?|Hnil].
  - by rewrite Heq.
  - unfold len at 2. lia.
  - destruct S; [done | discriminate].
Qed.

Lemma filter_seqZ_sorted (P : Z → Prop) `{∀ i, Decision (P i)} n : ∀ m,
  StronglySorted Z.lt (filter P (seqZ m (Z.of_nat n))).
Proof.
  induction n as [|n IH]; intros m.
  - rewrite seqZ_nil by lia. constructor.
  - rewrite seqZ_cons by lia.
    replace (Z.pred (Z.of_nat (S n))) with (Z.of_nat n) by lia.
    rewrite filter_cons. destruct (decide (P m)); [|apply IH].
    apply StronglySorted_cons. split; [|apply IH].
    apply Forall_forall. intros k Hk.
    apply list_elem_of_filter in Hk as [_ Hk]. apply elem_of_seqZ in Hk. lia.
Qed.

Lemma occurrences_sorted T S : StronglySorted Z.lt (occurrences T S).
Proof.
  unfold occurrences, len.
  replace (Z.of_nat (length T) + 1) with (Z.of_nat (Datatypes.S (length T))) by lia.
  apply filter_seqZ_sorted.
Qed.

(** ** Array [indexOf] and [splice] *)

Lemma Array_indexOf_from_found l x : ∀ k,
  x ∈ l →
  ∃ l1 l2, l = l1 ++ x :: l2 ∧ (x ∉ l1) ∧ Array_indexOf_from l x k = k + len l1.
Proof.
  induction l as [|y l IH]; intros k Hin; [by apply elem_of_nil in Hin|].
  simpl. destruct (Z.eqb_spec y x) as [->|Hne].
  - exists [], l. split; [done|]. split; [apply not_elem_of_nil|].
    unfold len; simpl; lia.
  - apply elem_of_cons in Hin as [->|Hin]; [done|].
    destruct (IH (k + 1) Hin) as (l1 & l2 & -> & Hnot & Hidx).
    exists (y :: l1), l2. split; [done|]. split.
    + rewrite not_elem_of_cons. split; [by intros ->|done].
    + rewrite Hidx. unfold len; simpl; lia.
Qed.

Lemma Array_indexOf_from_absent l x : ∀ k,
  x ∉ l → Array_indexOf_from l x k = -1.
Proof.
  induction l as [|y l IH]; intros k Hnot; [done|].
  apply not_elem_of_cons in Hnot as [Hne Hnot].
  simpl. destruct (Z.eqb_spec y x) as [->|_]; [done|]. by apply IH.
Qed.

Lemma splice_one_at {A} (l1 l2 : list A) x :
  splice (l1 ++ x :: l2) (len l1) 1 = l1 ++ l2.
Proof.
  unfold splice, len. rewrite length_app. simpl.
  rewrite (proj2 (Z.ltb_ge _ 0)) by lia.
  replace (Z.min (Z.of_nat (length l1)) _) with (Z.of_nat (length l1)) by lia.
  replace (Z.of_nat (length l1) + Z.min _ _) with (Z.of_nat (Datatypes.S (length l1))) by lia.
  rewrite !Nat2Z.id, take_app_length.
  f_equal. change (x :: l2) with ([x] ++ l2). rewrite app_assoc.
  apply drop_app_length'. rewrite length_app. simpl. lia.
Qed.

Lemma splice_last {A} (l : list A) x : splice (l ++ [x]) (-1) 1 = l.
Proof.
  unfold splice, len. rewrite length_app. simpl.
  replace (Z.max _ 0) with (Z.of_nat (length l)) by lia.
  replace (Z.of_nat (length l) + Z.min _ _) with (Z.of_nat (length l + 1)) by lia.
  rewrite !Nat2Z.id, take_app_length.
  rewrite drop_ge by (rewrite length_app; simpl; lia).
  apply app_nil_r.
Qed.

Lemma splice_nil {A} (start deleteCount : Z) : splice (@nil A) start deleteCount = [].
Proof. unfold splice. by rewrite take_nil, drop_nil. Qed.

(** ** The finder *)

(** C1. For every text [T] and search string [S] that is not empty,
    [findAll] returns (within [length T + 1] turns of its loop) exactly the
    offsets [i] with [T[i : i + len S] = S], in increasing order; a match at
    [i] does not hide one at [i + 1], so matches that overlap are all
    there: [findAll "aaa" "aa" = [0; 1]], and [findAll "abc" "xyz" = []]. *)
Theorem findAll_all_occurrences (T S : jsstring) (fuel : nat)
    (HS : S ≠ []) (Hfuel : (length T < fuel)%nat) :
  findAll fuel T S
    = Some (filter (λ i, substring T i (length S) = S) (seqZ 0 (len T + 1)))
  ∧ (∀ i, i ∈ occurrences T S ↔ 0 ≤ i ∧ substring T i (length S) = S)
  ∧ findAll 4 (js "aaa") (js "aa") = Some [0; 1]
  ∧ findAll 4 (js "abc") (js "xyz") = Some [].
Proof.
  split; [by apply findAll_occurrences|].
  split; [intros i; by apply elem_of_occurrences|].
  split; reflexivity.
Qed.

Lemma findAll_all_occurrences_witness :
  findAll 22 (js "hello world from here") (js "he") = Some [0; 17].
Proof.
  rewrite (proj1 (findAll_all_occurrences
                    (js "hello world from here") (js "he") 22
                    ltac:(discriminate) ltac:(simpl; lia))).
  reflexivity.
Defined.

(** C7. For every text [T] and search string [S] that is not empty, the
    offsets [findAll] returns are strictly increasing, and each of them is
    a valid index: [0 <= i <= len T - len S]. *)
Theorem findAll_increasing_valid (T S : jsstring) (fuel : nat)
    (HS : S ≠ []) (Hfuel : (length T < fuel)%nat) :
  ∃ indices,
    findAll fuel T S = Some indices
    ∧ StronglySorted Z.lt indices
    ∧ Forall (λ i, 0 ≤ i ≤ len T - len S) indices.
Proof.
  exists (occurrences T S). split; [by apply findAll_occurrences|].
  split; [apply occurrences_sorted|].
  apply Forall_forall. intros i Hi. by apply occurrences_valid.
Qed.

Lemma findAll_increasing_valid_witness :
  ∃ indices,
    findAll 4 (js "aaa") (js "aa") = Some indices
    ∧ StronglySorted Z.lt indices
    ∧ Forall (λ i, 0 ≤ i ≤ 3 - 2) indices.
Proof.
  apply (findAll_increasing_valid (js "aaa") (js "aa") 4);
    [discriminate | simpl; lia].
Defined.

(** ** The removal step *)

(** C3. When the offset list holds the seed range's start offset, the
    removal step takes out one entry, the first that equals it: the
    entries before it and all entries after it, later entries of the same
    value included, stay as they are. *)
Theorem removeOriginal_first_match (indices : list Z) (offset : Z)
    (Hin : offset ∈ indices) :
  ∃ before after,
    indices = before ++ offset :: after
    ∧ (offset ∉ before)
    ∧ removeOriginal indices offset = before ++ after.
Proof.
  destruct (Array_indexOf_from_found indices offset 0 Hin)
    as (l1 & l2 & Heq & Hnot & Hidx).
  exists l1, l2. split; [done|]. split; [done|].
  unfold removeOriginal, Array_indexOf. rewrite Hidx, Heq. simpl.
  apply splice_one_at.
Qed.

Lemma removeOriginal_first_match_witness :
  ∃ before after,
    [5; 7; 5; 9] = before ++ 7 :: after
    ∧ (7 ∉ before)
    ∧ removeOriginal [5; 7; 5; 9] 7 = before ++ after.
Proof.
  apply (removeOriginal_first_match [5; 7; 5; 9] 7).
  apply list_elem_of_further, list_elem_of_here.
Defined.

(** C10. When the offset list is not empty and does not hold the seed
    range's start offset, the lookup answers [-1] and the removal step
    takes out the last entry of the list: nothing is thrown, and the list
    is one entry shorter. *)
Theorem removeOriginal_absent_drops_last (indices : list Z) (offset : Z)
    (Hne : indices ≠ []) (Hnot : offset ∉ indices) :
  Array_indexOf indices offset = -1
  ∧ ∃ front last,
      indices = front ++ [last] ∧ removeOriginal indices offset = front.
Proof.
  assert (Hidx : Array_indexOf indices offset = -1)
    by (by apply Array_indexOf_from_absent).
  split; [done|].
  destruct (exists_last Hne) as (front & last & ->).
  exists front, last. split; [done|].
  unfold removeOriginal. rewrite Hidx. apply splice_last.
Qed.

Lemma removeOriginal_absent_drops_last_witness :
  Array_indexOf [5; 7; 9] 4 = -1
  ∧ ∃ front last,
      [5; 7; 9] = front ++ [last] ∧ removeOriginal [5; 7; 9] 4 = front.
Proof.
  apply (removeOriginal_absent_drops_last [5; 7; 9] 4); [discriminate|].
  rewrite !not_elem_of_cons. repeat split; try lia. apply not_elem_of_nil.
Defined.

(** ** Positions and ranges: the boolean tests decide equality *)

Lemma Position_isEqual_eq p q : Position_isEqual p q = true ↔ p = q.
Proof.
  destruct p as [l c], q as [l' c']. unfold Position_isEqual; simpl.
  rewrite andb_true_iff, !Z.eqb_eq. split; [intros [-> ->]; done|].
  intros [= -> ->]. done.
Qed.

Lemma Range_isEqual_eq r r' : Range_isEqual r r' = true ↔ r = r'.
Proof.
  destruct r as [a b], r' as [a' b']. unfold Range_isEqual; simpl.
  rewrite andb_true_iff, !Position_isEqual_eq. split; [intros [-> ->]; done|].
  intros [= -> ->]. done.
Qed.

Lemma newRange_ends a b :
  (start (newRange a b) = a ∧ end_ (newRange a b) = b)
  ∨ (start (newRange a b) = b ∧ end_ (newRange a b) = a).
Proof. unfold newRange. destruct (Position_isBefore a b); simpl; auto. Qed.

(** A selection is empty exactly when its anchor is its cursor. *)
Lemma Selection_isEmpty_eq s :
  Range_isEmpty (Selection_range s) = true ↔ anchor s = active s.
Proof.
  unfold Range_isEmpty, Selection_range. rewrite Position_isEqual_eq.
  destruct (newRange_ends (anchor s) (active s)) as [[-> ->]|[-> ->]];
    split; congruence.
Qed.

Lemma isWholeWord_eq doc s :
  isWholeWord doc s = true
  ↔ getWordRangeAtPosition doc (start (Selection_range s)) = Some (Selection_range s).
Proof.
  unfold isWholeWord.
  destruct (getWordRangeAtPosition doc (start (Selection_range s))) as [r|].
  - rewrite Range_isEqual_eq. split; congruence.
  - split; discriminate.
Qed.

Lemma List_filter_decide {A} (f : A → bool) (P : A → Prop)
    `{∀ x, Decision (P x)} (l : list A) :
  (∀ x, f x = true ↔ P x) → List.filter f l = filter P l.
Proof.
  intros Hf. induction l as [|x l IH]; [done|].
  simpl. rewrite filter_cons. destruct (decide (P x)) as [HP|HP].
  - rewrite (proj2 (Hf x) HP). by rewrite IH.
  - destruct (f x) eqn:Hfx; [by apply Hf in Hfx|done].
Qed.

(** ** The command *)

(** What the command does once it has an editor and a seed range. *)
Lemma selectAllOther_seeded fuel w editor seed wholeWords :
  activeTextEditor w = Some editor →
  getSelection editor = (Some seed, wholeWords) →
  selectAllOther fuel w
  = match findAll fuel (getText (document editor))
            (getTextRange (document editor) seed) with
    | None => None
    | Some indices =>
        let built :=
          indicesToSelections editor
            (removeOriginal indices (offsetAt (document editor) (start seed)))
            (len (getTextRange (document editor) seed)) in
        Some (assign_selections editor
                (if wholeWords
                 then List.filter (isWholeWord (document editor)) built
                 else built))
    end.
Proof.
  intros Hed Hseed. unfold selectAllOther. rewrite Hed, Hseed.
  destruct (findAll _ _ _); [|done]. by destruct wholeWords.
Qed.

(** With a seed text that is not empty and fuel for every offset of the
    text, the command returns, and this is what it assigns. *)
Lemma selectAllOther_enough_fuel fuel w editor seed wholeWords :
  activeTextEditor w = Some editor →
  getSelection editor = (Some seed, wholeWords) →
  getTextRange (document editor) seed ≠ [] →
  (length (getText (document editor)) < fuel)%nat →
  selectAllOther fuel w
  = Some (assign_selections editor
            (let built :=
               indicesToSelections editor
                 (removeOriginal
                    (occurrences (getText (document editor))
                       (getTextRange (document editor) seed))
                    (offsetAt (document editor) (start seed)))
                 (len (getTextRange (document editor) seed)) in
             if wholeWords
             then List.filter (isWholeWord (document editor)) built
             else built)).
Proof.
  intros Hed Hseed Hne Hfuel.
  rewrite (selectAllOther_seeded fuel w editor seed wholeWords Hed Hseed).
  by rewrite (findAll_occurrences _ _ fuel Hne Hfuel).
Qed.

(** C4. With the whole-word flag set, the command keeps exactly the built
    ranges whose span is the host's word range at their start position, in
    their order (a match that is a proper part of a word, or that reaches
    past one, is dropped); with the flag clear it keeps every built
    range. *)
Theorem selectAllOther_whole_word_filter (fuel : nat) (w : Window)
    (editor : TextEditor) (seed : Range) (wholeWords : bool)
    (Hed : activeTextEditor w = Some editor)
    (Hseed : getSelection editor = (Some seed, wholeWords))
    (Hne : getTextRange (document editor) seed ≠ [])
    (Hfuel : (length (getText (document editor)) < fuel)%nat) :
  let doc := document editor in
  let built :=
    indicesToSelections editor
      (removeOriginal (occurrences (getText doc) (getTextRange doc seed))
         (offsetAt doc (start seed)))
      (len (getTextRange doc seed)) in
  selectAllOther fuel w
  = Some (assign_selections editor
            (if wholeWords
             then filter (λ s, getWordRangeAtPosition doc
                                 (start (Selection_range s))
                               = Some (Selection_range s)) built
             else built)).
Proof.
  intros doc built.
  rewrite (selectAllOther_seeded fuel w editor seed wholeWords Hed Hseed).
  rewrite (findAll_occurrences _ _ fuel Hne Hfuel).
  destruct wholeWords; [|done].
  do 2 f_equal. apply List_filter_decide. intros s. apply isWholeWord_eq.
Qed.

(** The caret stands inside the first "world": the match inside
    "worldly" is dropped, the other whole word is kept. *)
Lemma selectAllOther_whole_word_filter_witness :
  let editor := editorOn (js "hello world worldly world") 8 8 in
  selectAllOther 26 (mkWindow (Some editor))
  = Some (assign_selections editor
            [mkSelection (mkPosition 0 20) (mkPosition 0 25)]).
Proof.
  intros editor.
  rewrite (selectAllOther_whole_word_filter 26 (mkWindow (Some editor)) editor
             (mkRange (mkPosition 0 6) (mkPosition 0 11)) true
             eq_refl eq_refl ltac:(discriminate) ltac:(simpl; lia)).
  reflexivity.
Defined.

(** A selection that is not empty switches the filter off: "lo" selected
    in "hello world, hello again" selects the "lo" inside the second
    "hello". *)
Example selectAllOther_partial_match :
  let editor := editorOn (js "hello world, hello again") 3 5 in
  selectAllOther 25 (mkWindow (Some editor))
  = Some (assign_selections editor
            [mkSelection (mkPosition 0 16) (mkPosition 0 18)]).
Proof. reflexivity. Qed.

(** C5. The seed: a selection that is not empty is itself the seed range,
    with the whole-word flag clear; an empty selection (a caret) takes the
    host's word range at the caret as seed range, with the flag set; and
    when the selection is empty and the host finds no word at the caret,
    the command returns with the window as it was. *)
Theorem getSelection_seed (fuel : nat) (w : Window) (editor : TextEditor)
    (Hed : activeTextEditor w = Some editor) :
  let current := selection editor in
  let caret := start (Selection_range current) in
  let wordAtCaret := getWordRangeAtPosition (document editor) caret in
  (anchor current ≠ active current →
     getSelection editor = (Some (Selection_range current), false))
  ∧ (anchor current = active current →
     getSelection editor = (wordAtCaret, true))
  ∧ (anchor current = active current → wordAtCaret = None →
     selectAllOther fuel w = Some w).
Proof.
  cbv zeta.
  assert (Hempty : anchor (selection editor) = active (selection editor) →
                   getSelection editor
                   = (getWordRangeAtPosition (document editor)
                        (start (Selection_range (selection editor))), true)).
  { intros Heq. unfold getSelection.
    by rewrite (proj2 (Selection_isEmpty_eq (selection editor)) Heq). }
  split; [|split; [done|]].
  - intros Hne. unfold getSelection.
    destruct (Range_isEmpty (Selection_range (selection editor))) eqn:He; [|done].
    by apply Selection_isEmpty_eq in He.
  - intros Heq Hnone. unfold selectAllOther.
    by rewrite Hed, (Hempty Heq), Hnone.
Qed.

(** "lo" selected in "hello world"; a caret inside "world"; a caret
    between two spaces, where there is no word. *)
Lemma getSelection_seed_witness :
  getSelection (editorOn (js "hello world") 3 5)
    = (Some (mkRange (mkPosition 0 3) (mkPosition 0 5)), false)
  ∧ getSelection (editorOn (js "hello world") 8 8)
    = (Some (mkRange (mkPosition 0 6) (mkPosition 0 11)), true)
  ∧ selectAllOther 0 (mkWindow (Some (editorOn (js "hello  world") 6 6)))
    = Some (mkWindow (Some (editorOn (js "hello  world") 6 6))).
Proof.
  split; [|split].
  - apply (proj1 (getSelection_seed 0
      (mkWindow (Some (editorOn (js "hello world") 3 5))) _ eq_refl)).
    discriminate.
  - apply (proj1 (proj2 (getSelection_seed 0
      (mkWindow (Some (editorOn (js "hello world") 8 8))) _ eq_refl))).
    reflexivity.
  - apply (proj2 (proj2 (getSelection_seed 0
      (mkWindow (Some (editorOn (js "hello  world") 6 6))) _ eq_refl)));
      reflexivity.
Defined.

(** ** The seed text is never empty *)






(** ** A seed text that stands once *)

Lemma NoDup_all_equal (l : list Z) i :
  NoDup l → (∀ j, j ∈ l ↔ j = i) → l = [i].
Proof.
  intros Hnd Hall. destruct l as [|x l].
  - exfalso. eapply not_elem_of_nil. by apply Hall.
  - assert (x = i) as -> by (apply Hall; left).
    destruct l as [|y l]; [done|].
    assert (y = i) as -> by (apply Hall; right; left).
    apply NoDup_cons in Hnd as [Hnot _]. exfalso. apply Hnot. left.
Qed.

Lemma occurrences_unique T S i :
  (∀ j, 0 ≤ j ∧ substring T j (length S) = S ↔ j = i) →
  S ≠ [] ∧ occurrences T S = [i].
Proof.
  intros Hall.
  assert (HS : S ≠ []).
  { intros ->.
    assert (H0 : 0 = i) by (apply Hall; split; [lia | done]).
    assert (H1 : 1 = i) by (apply Hall; split; [lia | done]).
    lia. }
  split; [done|]. apply NoDup_all_equal.
  - apply NoDup_filter, NoDup_seqZ.
  - intros j. rewrite (elem_of_occurrences T S j HS). apply Hall.
Qed.

Lemma removeOriginal_singleton i offset : removeOriginal [i] offset = [].
Proof.
  unfold removeOriginal, Array_indexOf. simpl.
  destruct (i =? offset); reflexivity.
Qed.

(** C9, as the spec states it, fails: "hello" is selected in "hello
    world" and stands nowhere else; the command assigns the empty array,
    and the editor ends with one selection, a caret at the start of the
    document, not with none. *)
Lemma unique_seed_leaves_caret_at_origin :
  let editor := editorOn (js "hello world") 0 5 in
  occurrences (js "hello world") (js "hello") = [0]
  ∧ ∃ editor',
      selectAllOther 12 (mkWindow (Some editor)) = Some (mkWindow (Some editor'))
      ∧ selections editor' = [mkSelection (mkPosition 0 0) (mkPosition 0 0)]
      ∧ selections editor' ≠ [].
Proof.
  intros editor. split; [reflexivity|].
  exists (mkTextEditor (document editor) caretAtOrigin []).
  split; [reflexivity|]. split; [reflexivity | discriminate].
Qed.

(** C9, amended. When the seed text stands exactly once in the document,
    the command assigns the empty array to the editor's selections and
    returns; this is no error.  The host's setter stores the empty array
    as one caret at line 0, character 0: the editor ends with that single
    empty selection and no occurrence selected. *)
Theorem selectAllOther_unique_seed (fuel : nat) (w : Window)
    (editor : TextEditor) (seed : Range) (wholeWords : bool) (i : Z)
    (Hed : activeTextEditor w = Some editor)
    (Hseed : getSelection editor = (Some seed, wholeWords))
    (Honce : ∀ j,
       0 ≤ j ∧ substring (getText (document editor)) j
                 (length (getTextRange (document editor) seed))
               = getTextRange (document editor) seed
       ↔ j = i)
    (Hfuel : (length (getText (document editor)) < fuel)%nat) :
  ∃ editor',
    selectAllOther fuel w = Some (mkWindow (Some editor'))
    ∧ document editor' = document editor
    ∧ selections editor' = [mkSelection (mkPosition 0 0) (mkPosition 0 0)].
Proof.
  destruct (occurrences_unique _ _ i Honce) as [Hne Hocc].
  exists (mkTextEditor (document editor) caretAtOrigin []).
  split; [|done].
  rewrite (selectAllOther_seeded fuel w editor seed wholeWords Hed Hseed).
  rewrite (findAll_occurrences _ _ fuel Hne Hfuel), Hocc.
  rewrite removeOriginal_singleton. simpl. by destruct wholeWords.
Qed.

Lemma selectAllOther_unique_seed_witness :
  let editor := editorOn (js "hello world") 0 5 in
  ∃ editor',
    selectAllOther 12 (mkWindow (Some editor)) = Some (mkWindow (Some editor'))
    ∧ document editor' = document editor
    ∧ selections editor' = [mkSelection (mkPosition 0 0) (mkPosition 0 0)].
Proof.
  intros editor.
  apply (selectAllOther_unique_seed 12 (mkWindow (Some editor)) editor
           (mkRange (mkPosition 0 0) (mkPosition 0 5)) false 0
           eq_refl eq_refl).
  - intros j.
    change (getTextRange (document editor) _) with (js "hello").
    change (getText (document editor)) with (js "hello world").
    rewrite <- (elem_of_occurrences (js "hello world") (js "hello") j)
      by discriminate.
    change (occurrences (js "hello world") (js "hello")) with [0].
    apply list_elem_of_singleton.
  - simpl. lia.
Defined.

(** ** The selection builder *)

(** One selection per offset, in the order of the offsets: the selection
    at place [k] starts at the position of the [k]-th offset and ends
    [length] characters further on the same line. *)
Lemma indicesToSelections_lookup editor indices length k :
  indicesToSelections editor indices length !! k
  = (λ i, mkSelection (positionAt (document editor) i)
            (translate (positionAt (document editor) i) 0 length))
    <$> indices !! k.
Proof. unfold indicesToSelections. apply list_lookup_fmap. Qed.

Lemma indicesToSelections_length editor indices L :
  length (indicesToSelections editor indices L) = length indices.
Proof. unfold indicesToSelections. apply length_map. Qed.

Lemma positionFrom_nil n p : positionFrom [] n p = p.
Proof. by destruct n. Qed.

Lemma positionFrom_add t : ∀ n m p,
  positionFrom t (n + m) p = positionFrom (drop n t) m (positionFrom t n p).
Proof.
  induction t as [|u t IH]; intros n m p.
  - by rewrite drop_nil, !positionFrom_nil.
  - destruct n as [|n]; [done|]. simpl. apply IH.
Qed.

Lemma positionFrom_same_line t : ∀ m p,
  (m ≤ length t)%nat →
  Forall (λ u, isLineFeed u = false) (take m t) →
  positionFrom t m p = translate p 0 (Z.of_nat m).
Proof.
  induction t as [|u t IH]; intros m p Hm Hlf.
  - simpl in Hm. assert (m = 0%nat) as -> by lia.
    destruct p; unfold translate; simpl. f_equal; lia.
  - destruct m as [|m].
    + destruct p; unfold translate; simpl. f_equal; lia.
    + simpl in Hm, Hlf. apply Forall_cons in Hlf as [Hu Hlf].
      simpl. rewrite IH by (lia || done).
      unfold advance. rewrite Hu. unfold translate; simpl. f_equal; lia.
Qed.

(** On a plain document the builder's end position is the position of
    offset [i + L] whenever the [L] characters from [i] on hold no line
    feed. *)
Lemma plainDocument_same_line text i L :
  0 ≤ i → 0 ≤ L → i + L ≤ len text →
  Forall (λ u, isLineFeed u = false) (substring text i (Z.to_nat L)) →
  positionAt (plainDocument text) (i + L)
  = translate (positionAt (plainDocument text) i) 0 L.
Proof.
  intros Hi HL Hlen Hlf. unfold len in Hlen. simpl.
  rewrite Z2Nat.inj_add by done. rewrite positionFrom_add.
  rewrite positionFrom_same_line; [by rewrite Z2Nat.id| |done].
  rewrite length_drop. lia.
Qed.

(** C2, where the code departs from it. The seed "a\nb" is selected in
    the text "a\nb a\nb" and stands again at offset 4.  The builder ends
    the selection for offset 4 three columns to the right of its start, on
    the same line, at (1, 5); the position of offset 4 + 3 is (2, 1), on
    the next line.  (Each offset still gives one selection, in order:
    [indicesToSelections_lookup]; and the end is the position of
    [i + L] when the match holds no line break:
    [plainDocument_same_line].) *)
Theorem indicesToSelections_line_break :
  let text := js "a" ++ LF ++ js "b a" ++ LF ++ js "b" in
  let editor := editorOn text 0 3 in
  let seed := mkRange (mkPosition 0 0) (mkPosition 1 1) in
  getSelection editor = (Some seed, false)
  ∧ getTextRange (document editor) seed = js "a" ++ LF ++ js "b"
  ∧ findAll 8 text (js "a" ++ LF ++ js "b") = Some [0; 4]
  ∧ indicesToSelections editor [4] 3
    = [mkSelection (mkPosition 1 2) (mkPosition 1 5)]
  ∧ positionAt (document editor) (4 + 3) = mkPosition 2 1
  ∧ selectAllOther 8 (mkWindow (Some editor))
    = Some (assign_selections editor
              [mkSelection (mkPosition 1 2) (mkPosition 1 5)]).
Proof. repeat split; reflexivity. Qed.

(** ** More on the finder *)

Lemma filter_ext_elem {A} (P Q : A → Prop) `{∀ x, Decision (P x)}
    `{∀ x, Decision (Q x)} (l : list A) :
  (∀ x, x ∈ l → P x ↔ Q x) → filter P l = filter Q l.
Proof.
  induction l as [|x l IH]; intros Hext; [done|].
  rewrite !filter_cons.
  rewrite IH by (intros y Hy; apply Hext; by right).
  destruct (decide (P x)) as [HP|HP], (decide (Q x)) as [HQ|HQ]; try done.
  - exfalso. apply HQ, Hext; [left|done].
  - exfalso. apply HP, Hext; [left|done].
Qed.

Lemma filter_none {A} (P : A → Prop) `{∀ x, Decision (P x)} (l : list A) :
  (∀ x, x ∈ l → ¬ P x) → filter P l = [].
Proof.
  induction l as [|x l IH]; intros Hno; [done|].
  rewrite filter_cons, decide_False by (apply Hno; left).
  apply IH. intros y Hy. apply Hno. by right.
Qed.

(** The loop takes one turn for each offset it pushes and one more for the
    test that ends it. *)
Lemma findAll_loop_turns S T t : ∀ pre fuel acc,
  S ≠ [] →
  T = pre ++ t →
  findAll_loop fuel T S (scanFrom S t (len pre)) acc
  = let found := filter (λ i, substring T i (length S) = S)
                   (seqZ (len pre) (len t + 1)) in
    if decide (length found < fuel)%nat then Some (acc ++ found) else None.
Proof.
  induction t as [|u t IH]; intros pre fuel acc HS HT.
  - simpl scanFrom. rewrite startsWithb_nil by done.
    replace (len (@nil N) + 1) with 1 by done.
    rewrite seqZ_cons, seqZ_nil by lia.
    rewrite filter_cons, filter_nil.
    rewrite (decide_False (P := substring T (len pre) (length S) = S))
      by (rewrite HT, substring_app_length, take_nil; done).
    destruct fuel as [|fuel]; simpl; [done|]. by rewrite app_nil_r.
  - assert (Hstep : T = (pre ++ [u]) ++ t) by (by rewrite <- app_assoc).
    assert (Hlen : len (pre ++ [u]) = len pre + 1)
      by (unfold len; rewrite length_app; simpl; lia).
    replace (len (u :: t) + 1) with (Z.succ (len t + 1))
      by (unfold len; simpl; lia).
    rewrite seqZ_cons by (unfold len; lia).
    rewrite Z.pred_succ, filter_cons.
    replace (Z.succ (len pre)) with (len (pre ++ [u])) by lia.
    simpl scanFrom. rewrite <- Hlen.
    destruct (startsWithb S (u :: t)) eqn:Hsw.
    + rewrite (decide_True (P := substring T (len pre) (length S) = S))
        by (rewrite HT, substring_app_length; by apply startsWithb_take).
      cbv zeta. destruct fuel as [|fuel].
      { simpl findAll_loop. by rewrite decide_False by (simpl; lia). }
      simpl findAll_loop.
      rewrite (proj2 (Z.eqb_neq (len pre) (-1))) by (unfold len; lia).
      rewrite <- Hlen. rewrite Hstep at 2. rewrite indexOf_suffix.
      rewrite (IH (pre ++ [u]) fuel (acc ++ [len pre])) by done.
      cbv zeta. simpl length.
      destruct (decide (_ < fuel)%nat), (decide (_ < Datatypes.S fuel)%nat);
        try lia; [|done].
      by rewrite <- app_assoc.
    + rewrite (decide_False (P := substring T (len pre) (length S) = S)).
      2:{ rewrite HT, substring_app_length, <- startsWithb_take.
          by rewrite Hsw. }
      by apply IH.
Qed.

Lemma findAll_turns T S fuel :
  S ≠ [] →
  findAll fuel T S
  = if decide (length (occurrences T S) < fuel)%nat
    then Some (occurrences T S) else None.
Proof.
  intros HS. unfold findAll, occurrences.
  change (indexOf T S 0) with (indexOf ([] ++ T) S (len (@nil N))).
  rewrite indexOf_suffix.
  apply (findAll_loop_turns S T T [] fuel [] HS eq_refl).
Qed.

Lemma substring_app_prefix T1 T2 i m :
  0 ≤ i → i + Z.of_nat m ≤ len T1 →
  substring (T1 ++ T2) i m = substring T1 i m.
Proof.
  unfold substring, len. intros Hi Hm.
  rewrite drop_app_le by lia.
  apply take_app_le. rewrite length_drop. lia.
Qed.

Lemma substring_too_far T S i :
  S ≠ [] → len T - len S < i → substring T i (length S) ≠ S.
Proof.
  intros HS Hi Heq.
  destruct (decide (0 ≤ i)) as [Hnn|Hneg].
  - destruct (substring_length_bound T i (length S) Hnn) as [?|Hnil].
    + by rewrite Heq.
    + unfold len in Hi at 2. lia.
    + destruct S; [done | discriminate].
  - assert (Hin : 0 ∈ occurrences T S).
    { apply elem_of_occurrences; [done|]. split; [lia|].
      rewrite <- Heq at 2. unfold substring. by rewrite !Z2Nat.nonpos by lia. }
    apply occurrences_valid in Hin; [lia | done].
Qed.

(** Offsets past [len T - len S] hold no occurrence: the occurrences are
    those among the first [from] offsets, for every [from] that reaches
    past [len T - len S]. *)
Lemma occurrences_split T S from :
  S ≠ [] → 0 ≤ from ≤ len T + 1 → len T - len S < from →
  occurrences T S
  = filter (λ i, substring T i (length S) = S) (seqZ 0 from).
Proof.
  intros HS Hfrom Hpast. unfold occurrences.
  replace (len T + 1) with (from + (len T + 1 - from)) by lia.
  rewrite seqZ_app by lia. rewrite filter_app.
  rewrite (filter_none _ (seqZ (0 + from) _)); [apply app_nil_r|].
  intros i Hi%elem_of_seqZ. apply substring_too_far; [done | lia].
Qed.

(** ** More on the removal step *)

Lemma filter_ne_absent (l : list Z) x : x ∉ l → filter (λ i, i ≠ x) l = l.
Proof.
  induction l as [|y l IH]; intros Hnot; [done|].
  apply not_elem_of_cons in Hnot as [Hne Hnot].
  rewrite filter_cons, decide_True by congruence. by rewrite IH.
Qed.

Lemma removeOriginal_cases (indices : list Z) (offset : Z) :
  (∃ before after, indices = before ++ offset :: after
                   ∧ (offset ∉ before)
                   ∧ removeOriginal indices offset = before ++ after)
  ∨ (∃ front last, indices = front ++ [last]
                   ∧ removeOriginal indices offset = front)
  ∨ (indices = [] ∧ removeOriginal indices offset = []).
Proof.
  destruct (decide (offset ∈ indices)) as [Hin|Hnot].
  - left.
    destruct (Array_indexOf_from_found indices offset 0 Hin)
      as (l1 & l2 & Heq & Hno & Hidx).
    exists l1, l2. split; [done|]. split; [done|].
    unfold removeOriginal, Array_indexOf. rewrite Hidx, Heq. simpl.
    apply splice_one_at.
  - right. destruct indices as [|x indices]; [right; by rewrite splice_nil || done|].
    left. destruct (exists_last (l := x :: indices)) as (front & last & Heq);
      [done|].
    exists front, last. split; [done|].
    unfold removeOriginal, Array_indexOf.
    rewrite (Array_indexOf_from_absent _ _ 0 Hnot), Heq. apply splice_last.
Qed.

Lemma removeOriginal_sublist indices offset :
  removeOriginal indices offset `sublist_of` indices.
Proof.
  destruct (removeOriginal_cases indices offset)
    as [(l1 & l2 & -> & _ & ->)|[(front & last & -> & ->)|[-> ->]]].
  - apply sublist_app; [done|]. by apply sublist_cons.
  - rewrite <- (app_nil_r front) at 1. apply sublist_app; [done|].
    apply sublist_nil_l.
  - done.
Qed.

Lemma removeOriginal_length indices offset :
  length (removeOriginal indices offset) = pred (length indices).
Proof.
  destruct (removeOriginal_cases indices offset)
    as [(l1 & l2 & -> & _ & ->)|[(front & last & -> & ->)|[-> ->]]];
    rewrite ?length_app; simpl; lia.
Qed.

Lemma removeOriginal_NoDup indices offset :
  NoDup indices → offset ∈ indices →
  removeOriginal indices offset = filter (λ i, i ≠ offset) indices.
Proof.
  intros Hnd Hin.
  destruct (Array_indexOf_from_found indices offset 0 Hin)
    as (l1 & l2 & Heq & Hno & Hidx).
  unfold removeOriginal, Array_indexOf. rewrite Hidx, Heq. simpl.
  replace (splice _ _ 1) with (l1 ++ l2) by (symmetry; apply splice_one_at).
  rewrite Heq in Hnd.
  apply NoDup_app in Hnd as (_ & _ & [Hno2 _]%NoDup_cons).
  rewrite filter_app, filter_cons, decide_False by (intros Hne; by apply Hne).
  by rewrite !filter_ne_absent.
Qed.

Lemma occurrences_NoDup T S : NoDup (occurrences T S).
Proof. apply NoDup_filter, NoDup_seqZ. Qed.

(** ** Edge cases and size of the finder's result *)

(** X1. With the empty search string [indexOf] never answers [-1]
    (it answers the clamped position), so the loop of [findAll] never
    reaches its exit: no number of turns lets it return. *)
Theorem findAll_empty_search_never_returns (T : jsstring) :
  (∀ position, indexOf T [] position = Z.min (Z.max position 0) (len T))
  ∧ (∀ fuel, findAll fuel T [] = None).
Proof.
  split.
  - intros position. unfold indexOf. apply scanFrom_empty.
  - intros fuel. apply findAll_empty_search.
Qed.

(** X2. A search string longer than the text (an empty text included) is
    found nowhere: [findAll] returns the empty array, and it does so at
    the first test of its loop. *)
Theorem findAll_search_longer_than_text (T S : jsstring) (fuel : nat)
    (Hlonger : len T < len S) (Hfuel : (0 < fuel)%nat) :
  findAll fuel T S = Some [].
Proof.
  assert (HS : S ≠ [])
    by (intros ->; unfold len in Hlonger; simpl in Hlonger; lia).
  assert (Hocc : occurrences T S = []).
  { apply filter_none. intros i Hi%elem_of_seqZ.
    apply substring_too_far; [done | lia]. }
  rewrite findAll_turns by done. rewrite Hocc.
  by rewrite decide_True by (simpl; lia).
Qed.

Lemma findAll_search_longer_than_text_witness :
  findAll 1 (js "ab") (js "abc") = Some [] ∧ findAll 1 [] (js "a") = Some [].
Proof.
  split.
  - apply (findAll_search_longer_than_text (js "ab") (js "abc") 1);
      [unfold len; simpl; lia | lia].
  - apply (findAll_search_longer_than_text [] (js "a") 1);
      [unfold len; simpl; lia | lia].
Defined.

(** X3. For a search string that is not empty the loop takes exactly one
    turn per occurrence and one more for the test that ends it:
    [findAll] returns, and then the occurrences, exactly when its fuel
    exceeds their number; the array returned does not depend on the
    fuel. *)
Theorem findAll_turn_count (T S : jsstring) (fuel : nat) (HS : S ≠ []) :
  (findAll fuel T S = Some (occurrences T S)
     ↔ (length (occurrences T S) < fuel)%nat)
  ∧ (findAll fuel T S = None ↔ (fuel ≤ length (occurrences T S))%nat)
  ∧ (∀ indices, findAll fuel T S = Some indices → indices = occurrences T S).
Proof.
  rewrite findAll_turns by done.
  destruct (decide (length (occurrences T S) < fuel)%nat) as [Hlt|Hge].
  - split; [done|]. split; [split; [done|lia]|]. by intros indices [= <-].
  - split; [split; [done|lia]|]. split; [split; [lia|done]|]. done.
Qed.

Lemma findAll_turn_count_witness :
  findAll 3 (js "aaa") (js "aa") = Some (occurrences (js "aaa") (js "aa"))
  ∧ findAll 2 (js "aaa") (js "aa") = None.
Proof.
  split.
  - apply (proj1 (findAll_turn_count (js "aaa") (js "aa") 3
                    ltac:(discriminate))).
    vm_compute. lia.
  - apply (proj1 (proj2 (findAll_turn_count (js "aaa") (js "aa") 2
                           ltac:(discriminate)))).
    vm_compute. lia.
Defined.

(** X4. The array [findAll] returns for a search string that is not empty
    holds at most [len T - len S + 1] offsets (none when the search string
    is the longer one). *)
Theorem findAll_count_bound (T S : jsstring) (fuel : nat)
    (HS : S ≠ []) (Hfuel : (length T < fuel)%nat) :
  ∃ indices,
    findAll fuel T S = Some indices
    ∧ len indices ≤ Z.max 0 (len T - len S + 1).
Proof.
  exists (occurrences T S). split; [by apply findAll_occurrences|].
  assert (Hm : 0 < len S) by (destruct S; [done | unfold len; simpl; lia]).
  rewrite (occurrences_split T S (Z.max 0 (len T - len S + 1)))
    by (done || unfold len in *; lia).
  unfold len at 1.
  pose proof (length_filter (λ i, substring T i (length S) = S)
                (seqZ 0 (Z.max 0 (len T - len S + 1)))) as Hle.
  rewrite length_seqZ in Hle. lia.
Qed.

Lemma findAll_count_bound_witness :
  ∃ indices,
    findAll 4 (js "aaa") (js "aa") = Some indices
    ∧ len indices ≤ Z.max 0 (len (js "aaa") - len (js "aa") + 1).
Proof.
  apply (findAll_count_bound (js "aaa") (js "aa") 4);
    [discriminate | simpl; lia].
Defined.

(** X5. Text added at the end of a document keeps what the finder found:
    on [T1 ++ T2] it returns the offsets it returns on [T1], followed by
    offsets past [len T1 - len S] only. *)
Theorem findAll_append_text (T1 T2 S : jsstring) (fuel : nat)
    (HS : S ≠ []) (Hfuel : (length (T1 ++ T2) < fuel)%nat) :
  ∃ found later,
    findAll fuel T1 S = Some found
    ∧ findAll fuel (T1 ++ T2) S = Some (found ++ later)
    ∧ Forall (λ i, len T1 - len S < i) later.
Proof.
  assert (Hm : 0 < len S) by (destruct S; [done | unfold len; simpl; lia]).
  assert (Hlen : len (T1 ++ T2) = len T1 + len T2)
    by (unfold len; rewrite length_app; lia).
  set (from := Z.max 0 (len T1 - len S + 1)).
  exists (occurrences T1 S),
    (filter (λ i, substring (T1 ++ T2) i (length S) = S)
       (seqZ from (len (T1 ++ T2) + 1 - from))).
  split; [|split].
  - apply findAll_occurrences; [done|]. rewrite length_app in Hfuel. lia.
  - rewrite findAll_occurrences by done. f_equal.
    unfold occurrences at 1.
    replace (len (T1 ++ T2) + 1) with (from + (len (T1 ++ T2) + 1 - from))
      at 1 by lia.
    rewrite seqZ_app by (unfold from, len in *; lia).
    rewrite filter_app. f_equal.
    rewrite (occurrences_split T1 S from)
      by (done || unfold from, len in *; lia).
    apply filter_ext_elem. intros i Hi%elem_of_seqZ.
    rewrite substring_app_prefix; [done | lia |].
    unfold from, len in *. lia.
  - apply Forall_forall. intros i Hi.
    apply list_elem_of_filter in Hi as [_ Hi%elem_of_seqZ].
    unfold from in Hi. lia.
Qed.

Lemma findAll_append_text_witness :
  ∃ found later,
    findAll 8 (js "abab") (js "ab") = Some found
    ∧ findAll 8 (js "abab" ++ js "ab") (js "ab") = Some (found ++ later)
    ∧ Forall (λ i, len (js "abab") - len (js "ab") < i) later.
Proof.
  apply (findAll_append_text (js "abab") (js "ab") (js "ab") 8);
    [discriminate | simpl; lia].
Defined.

(** ** More on the builder and the removal step *)

Lemma translate_0_0 p : translate p 0 0 = p.
Proof. destruct p as [l c]. unfold translate; simpl. f_equal; lia. Qed.

Lemma Selection_range_translate p L :
  0 ≤ L →
  Selection_range (mkSelection p (translate p 0 L))
  = mkRange p (translate p 0 L).
Proof.
  intros HL. unfold Selection_range, newRange, Position_isBefore; simpl.
  destruct (Z.ltb_spec (line p) (line p + 0)) as [?|_]; [lia|].
  rewrite (proj2 (Z.eqb_eq (line p) (line p + 0))) by lia. simpl.
  destruct (Z.ltb_spec (character p) (character p + L)) as [_|Hge]; [done|].
  assert (L = 0) as -> by lia. by rewrite translate_0_0.
Qed.

(** X6. The builder returns one selection for each offset, in the order
    of the offsets and whatever their values (equal or overlapping ones
    included).  For a length that is not negative, the selection for
    offset [i] starts at the position of [i] and ends on that same line,
    [length] characters to the right of its start. *)
Theorem indicesToSelections_one_line_each (editor : TextEditor)
    (indices : list Z) (L : Z) (HL : 0 ≤ L) :
  length (indicesToSelections editor indices L) = length indices
  ∧ ∀ k i, indices !! k = Some i →
      ∃ s, indicesToSelections editor indices L !! k = Some s
           ∧ start (Selection_range s) = positionAt (document editor) i
           ∧ line (end_ (Selection_range s)) = line (start (Selection_range s))
           ∧ character (end_ (Selection_range s))
             = character (start (Selection_range s)) + L.
Proof.
  split; [apply indicesToSelections_length|].
  intros k i Hk. rewrite indicesToSelections_lookup, Hk. simpl.
  eexists. split; [done|].
  rewrite Selection_range_translate by done. simpl.
  repeat split; lia.
Qed.

Lemma indicesToSelections_one_line_each_witness :
  let editor := editorOn (js "hello world from here") 0 2 in
  length (indicesToSelections editor [0; 17] 2) = 2%nat
  ∧ ∀ k i, [0; 17] !! k = Some i →
      ∃ s, indicesToSelections editor [0; 17] 2 !! k = Some s
           ∧ start (Selection_range s) = positionAt (document editor) i
           ∧ line (end_ (Selection_range s)) = line (start (Selection_range s))
           ∧ character (end_ (Selection_range s))
             = character (start (Selection_range s)) + 2.
Proof.
  intros editor. apply (indicesToSelections_one_line_each editor [0; 17] 2).
  lia.
Defined.

(** X7. Whatever the offset, the removal step takes exactly one entry out
    of an array that is not empty and keeps the others in their order; an
    empty array stays empty (nothing is thrown). *)
Theorem removeOriginal_removes_one (indices : list Z) (offset : Z) :
  removeOriginal indices offset `sublist_of` indices
  ∧ length (removeOriginal indices offset) = pred (length indices)
  ∧ removeOriginal [] offset = [].
Proof.
  split; [apply removeOriginal_sublist|].
  split; [apply removeOriginal_length|done].
Qed.

(** ** More on the command *)

Lemma elem_of_indicesToSelections editor indices L s :
  s ∈ indicesToSelections editor indices L
  ↔ ∃ i, i ∈ indices
         ∧ s = mkSelection (positionAt (document editor) i)
                 (translate (positionAt (document editor) i) 0 L).
Proof.
  unfold indicesToSelections. rewrite list_elem_of_In, in_map_iff.
  setoid_rewrite <- list_elem_of_In. split.
  - intros (i & <- & Hi). eauto.
  - intros (i & Hi & ->). eauto.
Qed.

Lemma elem_of_List_filter {A} (f : A → bool) l x :
  x ∈ List.filter f l ↔ x ∈ l ∧ f x = true.
Proof. rewrite !list_elem_of_In. apply filter_In. Qed.

(** X9. On a host whose seed text is the text at the seed range's start
    offset, the command selects all the other occurrences and no more:
    the selections are built from every offset at which the seed text
    stands except the seed's own, in increasing order, and the whole-word
    filter (when the flag is set) is applied to those. *)
Theorem selectAllOther_all_other_occurrences (fuel : nat) (w : Window)
    (editor : TextEditor) (seed : Range) (wholeWords : bool)
    (Hed : activeTextEditor w = Some editor)
    (Hseed : getSelection editor = (Some seed, wholeWords))
    (Hne : getTextRange (document editor) seed ≠ [])
    (Hoff : 0 ≤ offsetAt (document editor) (start seed))
    (Hat : substring (getText (document editor))
             (offsetAt (document editor) (start seed))
             (length (getTextRange (document editor) seed))
           = getTextRange (document editor) seed)
    (Hfuel : (length (getText (document editor)) < fuel)%nat) :
  let doc := document editor in
  let others :=
    filter (λ i, i ≠ offsetAt doc (start seed))
      (occurrences (getText doc) (getTextRange doc seed)) in
  let built := indicesToSelections editor others (len (getTextRange doc seed)) in
  selectAllOther fuel w
  = Some (assign_selections editor
            (if wholeWords
             then filter (λ s, getWordRangeAtPosition doc
                                 (start (Selection_range s))
                               = Some (Selection_range s)) built
             else built)).
Proof.
  intros doc others built.
  rewrite (selectAllOther_enough_fuel fuel w editor seed wholeWords)
    by done.
  cbv zeta. rewrite removeOriginal_NoDup.
  - destruct wholeWords; [|done].
    do 2 f_equal. apply List_filter_decide. intros s. apply isWholeWord_eq.
  - apply occurrences_NoDup.
  - by apply elem_of_occurrences.
Qed.

Lemma selectAllOther_all_other_occurrences_witness :
  let editor := editorOn (js "lo, hello world, hello") 7 9 in
  selectAllOther 23 (mkWindow (Some editor))
  = Some (assign_selections editor
            [mkSelection (mkPosition 0 0) (mkPosition 0 2);
             mkSelection (mkPosition 0 20) (mkPosition 0 22)]).
Proof.
  intros editor.
  rewrite (selectAllOther_all_other_occurrences 23 (mkWindow (Some editor))
             editor (mkRange (mkPosition 0 7) (mkPosition 0 9)) false
             eq_refl eq_refl ltac:(discriminate) ltac:(by vm_compute)
             eq_refl ltac:(simpl; lia)).
  reflexivity.
Defined.

(** X10. On any host, every selection the command assigns stands on a
    match: it starts at the host's position of an offset at which the
    seed text stands in the document text, and it ends as many characters
    to the right on the same line as the seed text is long. *)
Theorem selectAllOther_selects_matches (fuel : nat) (w : Window)
    (editor : TextEditor) (seed : Range) (wholeWords : bool)
    (Hed : activeTextEditor w = Some editor)
    (Hseed : getSelection editor = (Some seed, wholeWords))
    (Hne : getTextRange (document editor) seed ≠ [])
    (Hfuel : (length (getText (document editor)) < fuel)%nat) :
  let doc := document editor in
  ∃ chosen,
    selectAllOther fuel w = Some (assign_selections editor chosen)
    ∧ ∀ s, s ∈ chosen →
        ∃ i, 0 ≤ i
             ∧ substring (getText doc) i (length (getTextRange doc seed))
               = getTextRange doc seed
             ∧ anchor s = positionAt doc i
             ∧ active s = translate (positionAt doc i) 0
                            (len (getTextRange doc seed)).
Proof.
  intros doc. eexists. split.
  - by apply (selectAllOther_enough_fuel fuel w editor seed wholeWords).
  - cbv zeta. intros s Hs.
    assert (Hbuilt : s ∈ indicesToSelections editor
              (removeOriginal
                 (occurrences (getText doc) (getTextRange doc seed))
                 (offsetAt doc (start seed)))
              (len (getTextRange doc seed))).
    { destruct wholeWords; [|done].
      by apply elem_of_List_filter in Hs as [Hs _]. }
    apply elem_of_indicesToSelections in Hbuilt as (i & Hi & ->).
    exists i.
    assert (Hocc : i ∈ occurrences (getText doc) (getTextRange doc seed))
      by (eapply elem_of_sublist; [exact Hi | apply removeOriginal_sublist]).
    apply elem_of_occurrences in Hocc as [Hnn Hmatch]; done.
Qed.

Lemma selectAllOther_selects_matches_witness :
  let editor := editorOn (js "hello world worldly world") 8 8 in
  let doc := document editor in
  let seed := mkRange (mkPosition 0 6) (mkPosition 0 11) in
  ∃ chosen,
    selectAllOther 26 (mkWindow (Some editor))
    = Some (assign_selections editor chosen)
    ∧ ∀ s, s ∈ chosen →
        ∃ i, 0 ≤ i
             ∧ substring (getText doc) i (length (getTextRange doc seed))
               = getTextRange doc seed
             ∧ anchor s = positionAt doc i
             ∧ active s = translate (positionAt doc i) 0
                            (len (getTextRange doc seed)).
Proof.
  intros editor doc seed.
  apply (selectAllOther_selects_matches 26 (mkWindow (Some editor)) editor
           seed true eq_refl eq_refl);
    [discriminate | simpl; lia].
Defined.

(** X11. The command assigns one selection less than the seed text has
    occurrences when the whole-word flag is clear, and at most that many
    when it is set: one offset is always taken out, whether or not it is
    the seed's own. *)
Theorem selectAllOther_selection_count (fuel : nat) (w : Window)
    (editor : TextEditor) (seed : Range) (wholeWords : bool)
    (Hed : activeTextEditor w = Some editor)
    (Hseed : getSelection editor = (Some seed, wholeWords))
    (Hne : getTextRange (document editor) seed ≠ [])
    (Hfuel : (length (getText (document editor)) < fuel)%nat) :
  let found :=
    occurrences (getText (document editor))
      (getTextRange (document editor) seed) in
  ∃ chosen,
    selectAllOther fuel w = Some (assign_selections editor chosen)
    ∧ (length chosen ≤ pred (length found))%nat
    ∧ (wholeWords = false → length chosen = pred (length found)).
Proof.
  intros found. eexists. split.
  - by apply (selectAllOther_enough_fuel fuel w editor seed wholeWords).
  - cbv zeta. destruct wholeWords.
    + split; [|discriminate].
      etrans; [apply filter_length_le|].
      by rewrite indicesToSelections_length, removeOriginal_length.
    + by rewrite indicesToSelections_length, removeOriginal_length.
Qed.

Lemma selectAllOther_selection_count_witness :
  let editor := editorOn (js "hello world worldly world") 6 11 in
  ∃ chosen,
    selectAllOther 26 (mkWindow (Some editor))
    = Some (assign_selections editor chosen)
    ∧ (length chosen
       ≤ pred (length (occurrences (js "hello world worldly world")
                         (js "world"))))%nat
    ∧ (false = false →
       length chosen
       = pred (length (occurrences (js "hello world worldly world")
                         (js "world")))).
Proof.
  intros editor.
  apply (selectAllOther_selection_count 26 (mkWindow (Some editor)) editor
           (mkRange (mkPosition 0 6) (mkPosition 0 11)) false
           eq_refl eq_refl);
    [discriminate | simpl; lia].
Defined.

(** X12. The original selection is left out: on a host whose seed text is
    the text at the seed range's start offset and whose [offsetAt] undoes
    [positionAt] on the offsets found, no selection the command assigns
    starts where the seed range starts. *)
Theorem selectAllOther_leaves_out_seed (fuel : nat) (w : Window)
    (editor : TextEditor) (seed : Range) (wholeWords : bool)
    (Hed : activeTextEditor w = Some editor)
    (Hseed : getSelection editor = (Some seed, wholeWords))
    (Hne : getTextRange (document editor) seed ≠ [])
    (Hoff : 0 ≤ offsetAt (document editor) (start seed))
    (Hat : substring (getText (document editor))
             (offsetAt (document editor) (start seed))
             (length (getTextRange (document editor) seed))
           = getTextRange (document editor) seed)
    (Hback : Forall (λ i, offsetAt (document editor)
                            (positionAt (document editor) i) = i)
               (occurrences (getText (document editor))
                  (getTextRange (document editor) seed)))
    (Hfuel : (length (getText (document editor)) < fuel)%nat) :
  ∃ chosen,
    selectAllOther fuel w = Some (assign_selections editor chosen)
    ∧ ∀ s, s ∈ chosen → start (Selection_range s) ≠ start seed.
Proof.
  eexists. split.
  - by apply (selectAllOther_enough_fuel fuel w editor seed wholeWords).
  - cbv zeta. intros s Hs.
    assert (Hbuilt : s ∈ indicesToSelections editor
              (removeOriginal
                 (occurrences (getText (document editor))
                    (getTextRange (document editor) seed))
                 (offsetAt (document editor) (start seed)))
              (len (getTextRange (document editor) seed))).
    { destruct wholeWords; [|done].
      by apply elem_of_List_filter in Hs as [Hs _]. }
    rewrite removeOriginal_NoDup in Hbuilt
      by (apply occurrences_NoDup || by apply elem_of_occurrences).
    apply elem_of_indicesToSelections in Hbuilt as (i & Hi & ->).
    apply list_elem_of_filter in Hi as [Hneq Hi].
    rewrite Selection_range_translate by (unfold len; lia). simpl.
    intros Hsame. apply Hneq. rewrite <- Hsame.
    symmetry. by apply (proj1 (Forall_forall _ _) Hback).
Qed.

Lemma selectAllOther_leaves_out_seed_witness :
  let editor := editorOn (js "lo, hello world, hello") 7 9 in
  ∃ chosen,
    selectAllOther 23 (mkWindow (Some editor))
    = Some (assign_selections editor chosen)
    ∧ ∀ s, s ∈ chosen → start (Selection_range s) ≠ mkPosition 0 7.
Proof.
  intros editor.
  apply (selectAllOther_leaves_out_seed 23 (mkWindow (Some editor)) editor
           (mkRange (mkPosition 0 7) (mkPosition 0 9)) false
           eq_refl eq_refl ltac:(discriminate) ltac:(by vm_compute) eq_refl).
  - change (occurrences _ _) with [0; 7; 20].
    repeat constructor.
  - simpl. lia.
Defined.
